(** * TypeDoc: link validation and render events

    A shallow embedding of two parts of the documentation generator:

    - the link validator ([getBrokenPartLinks], [getBrokenLinks],
      [checkReflection], [validateLinks]), and
    - the render events of [lib/output/events.ts] ([PageEvent] with
      [startNewSection], [IndexEvent] with [removeResult]).

    JavaScript strings are sequences of UTF-16 code units, arrays are lists,
    objects used as dictionaries are finite maps, and the arrays that the
    events share by reference live in an explicit store. *)

From Stdlib Require Import NArith ZArith Ascii String.
From stdpp Require Import gmap strings list sorting.

Set Default Proof Using "Type".

(** ** JavaScript strings *)

Module JS.

(** A string is the list of its UTF-16 code units. *)
Abbreviation jsstring := (list N).

(** The code units of an ASCII literal. *)
Definition js (s : string) : jsstring :=
  N_of_ascii <$> list_ascii_of_string s.

(** [s.startsWith(search)] *)
Fixpoint startsWith (s search : jsstring) {struct search} : bool :=
  match search, s with
  | [], _ => true
  | _ :: _, [] => false
  | c :: search', d :: s' => (c =? d)%N && startsWith s' search'
  end.

(** [s.includes(search)] *)
Fixpoint includes (s search : jsstring) : bool :=
  startsWith s search ||
  match s with
  | [] => false
  | _ :: s' => includes s' search
  end.

(** A character class [[...]] of a regular expression without flags
    matches one code unit that is listed in it. *)
Definition classMatches (class : jsstring) (c : N) : bool :=
  bool_decide (c ∈ class).

(** [s.replace(/[class]/, replacement)] for a replacement text without
    [$]: the pattern is not global, so only the leftmost match is
    replaced, and a string without a match is returned as it is. *)
Fixpoint replaceClass (class replacement s : jsstring) : jsstring :=
  match s with
  | [] => []
  | c :: s' =>
      if classMatches class c then replacement ++ s'
      else c :: replaceClass class replacement s'
  end.

(** ECMAScript [WhiteSpace] and [LineTerminator] code points; all of them
    are in the basic plane, hence single code units. *)
Definition whiteSpace : list N :=
  [0x9; 0xB; 0xC; 0x20; 0xA0; 0x1680;
   0x2000; 0x2001; 0x2002; 0x2003; 0x2004; 0x2005; 0x2006; 0x2007; 0x2008;
   0x2009; 0x200A; 0x202F; 0x205F; 0x3000; 0xFEFF]%N.

Definition lineTerminator : list N := [0xA; 0xD; 0x2028; 0x2029]%N.

Definition isTrimmed (c : N) : bool :=
  bool_decide (c ∈ whiteSpace) || bool_decide (c ∈ lineTerminator).

Fixpoint trimStart (s : jsstring) : jsstring :=
  match s with
  | [] => []
  | c :: s' => if isTrimmed c then trimStart s' else s
  end.

Definition trimEnd (s : jsstring) : jsstring :=
  reverse (trimStart (reverse s)).

(** [s.trim()] *)
Definition trim (s : jsstring) : jsstring := trimEnd (trimStart s).

(** [array.includes(x)] on an array of strings. *)
Definition arrayIncludes (l : list jsstring) (x : jsstring) : bool :=
  bool_decide (x ∈ l).

End JS.
Export JS.

(** ** The comment model (lib/models) *)

Module Model.

(** Modelled from the spec: the type of [target] is declared with the
    display parts, in lib/models. The spec tells an absent target, an
    unresolved-symbol-identifier placeholder, and any other target that is
    not empty: a target is a [Reflection] (kept here by its id), a string
    (an external URL, possibly empty), or a [ReflectionSymbolId], a symbol
    that was recognised but not bound to a reflection. *)
Inductive LinkTarget :=
| TargetReflection (id : N)
| TargetString (url : jsstring)
| TargetSymbolId (symbol : jsstring).

Global Instance LinkTarget_eq_dec : EqDecision LinkTarget.
Proof. solve_decision. Defined.

(** Modelled from the spec: the display-part union is declared in
    lib/models; a part is plain text, a code span, or an inline tag with
    an optional target. *)
Inductive CommentDisplayPart :=
| TextPart (text : jsstring)
| CodePart (text : jsstring)
| InlineTagPart (tag text : jsstring) (target : option LinkTarget).

Record CommentTag := {
  tagName : jsstring;
  content : list CommentDisplayPart;
}.

Record Comment := {
  summary : list CommentDisplayPart;
  blockTags : list CommentTag;
}.

(** JavaScript truthiness of [part.target]: [undefined] and the empty
    string are falsy, every object and every other string is truthy. *)
Definition truthy (target : option LinkTarget) : bool :=
  match target with
  | None => false
  | Some (TargetString []) => false
  | Some _ => true
  end.

(** [target instanceof ReflectionSymbolId] *)
Definition instanceofReflectionSymbolId (target : option LinkTarget) : bool :=
  match target with
  | Some (TargetSymbolId _) => true
  | _ => false
  end.

(** Modelled from the spec: the kind taxonomy is declared in lib/models.
    A reflection has one kind, and [kindOf] asks whether it is the given
    one. *)
Inductive ReflectionKind :=
| KindProject | KindNamespace | KindEnum | KindFunction | KindClass
| KindInterface | KindProperty | KindMethod | KindTypeAlias | KindDocument.

Inductive SomeType :=
| UnionType (elementSummaries : option (list (list CommentDisplayPart)))
| ReferenceType (name : jsstring)
| IntrinsicType (name : jsstring).

(** Modelled from the spec: a reflection is a project, a declaration, a
    document, or something else (a signature, a parameter, ...); the
    first two may carry a readme, a document has a content, and a
    declaration may have a type. *)
Inductive ReflectionVariant :=
| ProjectVariant (readme : option (list CommentDisplayPart))
| DeclarationVariant (readme : option (list CommentDisplayPart))
                     (type : option SomeType)
| DocumentVariant (content : list CommentDisplayPart)
| OtherVariant.

Record Reflection := {
  id : N;
  kind : ReflectionKind;
  comment : option Comment;
  (** the value of [getFriendlyFullName()], which is derived from the
      names on the path to the root *)
  friendlyFullName : jsstring;
  variant : ReflectionVariant;
}.

Definition isProject (r : Reflection) : bool :=
  match variant r with ProjectVariant _ => true | _ => false end.
Definition isDeclaration (r : Reflection) : bool :=
  match variant r with DeclarationVariant _ _ => true | _ => false end.
Definition isDocument (r : Reflection) : bool :=
  match variant r with DocumentVariant _ => true | _ => false end.

Global Instance ReflectionKind_eq_dec : EqDecision ReflectionKind.
Proof. solve_decision. Defined.

Definition kindOf (r : Reflection) (k : ReflectionKind) : bool :=
  bool_decide (kind r = k).

(** Field reads; a field that the variant does not have is [undefined]. *)
Definition readme (r : Reflection) : option (list CommentDisplayPart) :=
  match variant r with
  | ProjectVariant readme | DeclarationVariant readme _ => readme
  | _ => None
  end.
Definition documentContent (r : Reflection) : list CommentDisplayPart :=
  match variant r with DocumentVariant content => content | _ => [] end.
Definition type (r : Reflection) : option SomeType :=
  match variant r with DeclarationVariant _ type => type | _ => None end.

(** The root: a reflection of the project variant that owns the mapping
    from ids to reflections. *)
Record ProjectReflection := {
  projectId : N;
  projectComment : option Comment;
  projectName : jsstring;
  projectReadme : option (list CommentDisplayPart);
  reflections : gmap N Reflection;
}.

(** The project seen as a plain reflection. *)
Definition asReflection (p : ProjectReflection) : Reflection :=
  {| id := projectId p; kind := KindProject; comment := projectComment p;
     friendlyFullName := projectName p;
     variant := ProjectVariant (projectReadme p) |}.

End Model.
Export Model.

(** ** The logger and the effects of the validator *)

Module Effects.

(** The six templates of the message catalogue that the validator
    refers to. A translated message is kept as the template that was
    picked together with its arguments, so two messages are the same
    exactly when they have the same template and the same arguments. *)
Inductive TranslatedString :=
| failed_to_resolve_link_to_0_in_comment_for_1 (a0 a1 : jsstring)
| failed_to_resolve_link_to_0_in_comment_for_1_may_have_meant_2
    (a0 a1 a2 : jsstring)
| failed_to_resolve_link_to_0_in_readme_for_1 (a0 a1 : jsstring)
| failed_to_resolve_link_to_0_in_readme_for_1_may_have_meant_2
    (a0 a1 a2 : jsstring)
| failed_to_resolve_link_to_0_in_document_1 (a0 a1 : jsstring)
| failed_to_resolve_link_to_0_in_document_1_may_have_meant_2
    (a0 a1 a2 : jsstring).

(** The logger, as far as the validator can change it: the warnings it
    has received, oldest first. *)
Abbreviation Logger := (list TranslatedString).

Inductive JsError := TypeError.

(** A statement completes normally or throws. *)
Inductive Completion (A : Type) :=
| Normal (a : A)
| Throw (e : JsError).
Global Arguments Normal {A} a.
Global Arguments Throw {A} e.

(** Computations over a state [S] that may throw. *)
Definition M (S A : Type) : Type := S → Completion A * S.

Global Instance M_ret {S} : MRet (M S) := λ A a s, (Normal a, s).
Global Instance M_bind {S} : MBind (M S) := λ A B f m s,
  match m s with
  | (Normal a, s') => f a s'
  | (Throw e, s') => (Throw e, s')
  end.

Definition throw {S A} (e : JsError) : M S A := λ s, (Throw e, s).

(** [logger.warn(message)] *)
Definition warn (message : TranslatedString) : M Logger unit :=
  λ logger, (Normal (), logger ++ [message]).

(** [for (const x of xs) body] *)
Fixpoint forOf {S A} (xs : list A) (body : A → M S unit) : M S unit :=
  match xs with
  | [] => mret ()
  | x :: xs' => body x ;; forOf xs' body
  end.

(** [if (b) body] *)
Definition when {S} (b : bool) (body : M S unit) : M S unit :=
  if b then body else mret ().

(** The keys that [for (const id in object)] enumerates: the keys of an
    object whose own properties are all integer indices come in
    ascending numeric order. *)
Definition forInKeys {V} (object : gmap N V) : list N :=
  merge_sort N.le (elements (dom object)).

(** [key in object] *)
Definition hasProperty {V} (key : N) (object : gmap N V) : bool :=
  bool_decide (key ∈ dom object).

End Effects.
Export Effects.

(** ** The link validator *)

Module Validation.

Definition linkTags : list jsstring :=
  [js "@link"; js "@linkcode"; js "@linkplain"].

Definition getBrokenPartLinks (parts : list CommentDisplayPart) : list jsstring :=
  foldl (λ links part,
    match part with
    | InlineTagPart tag text target =>
        if arrayIncludes linkTags tag &&
           (negb (truthy target) || instanceofReflectionSymbolId target)
        then links ++ [trim text]
        else links
    | _ => links
    end) [] parts.

Definition getBrokenLinks (comment : option Comment) : list jsstring :=
  match comment with
  | None => []
  | Some comment =>
      foldl (λ links tag, links ++ getBrokenPartLinks (content tag))
            (getBrokenPartLinks (summary comment)) (blockTags comment)
  end.

Definition checkReflection (reflection : Reflection) : M Logger unit :=
  when (isProject reflection || isDeclaration reflection)
    (forOf (getBrokenPartLinks (default [] (readme reflection))) (λ broken,
       if startsWith broken (js "@") && negb (includes broken (js "!")) then
         warn (failed_to_resolve_link_to_0_in_readme_for_1_may_have_meant_2
                 broken (friendlyFullName reflection)
                 (replaceClass (js ".#~") (js "!") broken))
       else
         warn (failed_to_resolve_link_to_0_in_readme_for_1
                 broken (friendlyFullName reflection)))) ;;
  when (isDocument reflection)
    (forOf (getBrokenPartLinks (documentContent reflection)) (λ broken,
       if startsWith broken (js "@") && negb (includes broken (js "!")) then
         warn (failed_to_resolve_link_to_0_in_document_1_may_have_meant_2
                 broken (friendlyFullName reflection)
                 (replaceClass (js ".#~") (js "!") broken))
       else
         warn (failed_to_resolve_link_to_0_in_document_1
                 broken (friendlyFullName reflection)))) ;;
  forOf (getBrokenLinks (comment reflection)) (λ broken,
    if startsWith broken (js "@") && negb (includes broken (js "!")) then
      warn (failed_to_resolve_link_to_0_in_comment_for_1_may_have_meant_2
              broken (friendlyFullName reflection)
              (replaceClass (js ".#~") (js "!") broken))
    else
      warn (failed_to_resolve_link_to_0_in_comment_for_1
              broken (friendlyFullName reflection))) ;;
  if isDeclaration reflection && kindOf reflection KindTypeAlias then
    match type reflection with
    | Some (UnionType (Some elementSummaries)) =>
        forOf (concat (getBrokenPartLinks <$> elementSummaries)) (λ broken,
          if startsWith broken (js "@") && negb (includes broken (js "!")) then
            warn (failed_to_resolve_link_to_0_in_comment_for_1_may_have_meant_2
                    broken (friendlyFullName reflection)
                    (replaceClass (js ".#~") (js "!") broken))
          else
            warn (failed_to_resolve_link_to_0_in_comment_for_1
                    broken (friendlyFullName reflection)))
    | _ => mret ()
    end
  else mret ().

(** The traversal of [validateLinks], with the check it runs on each
    reflection as a parameter, so that the calls can be observed. *)
Definition validateLinksWith {S} (check : Reflection → M S unit)
    (project : ProjectReflection) : M S unit :=
  forOf (forInKeys (reflections project)) (λ id,
    match reflections project !! id with
    | Some reflection => check reflection
    | None => throw TypeError
    end) ;;
  when (negb (hasProperty (projectId project) (reflections project)))
    (check (asReflection project)).

Definition validateLinks (project : ProjectReflection) : M Logger unit :=
  validateLinksWith checkReflection project.

(** The check that only records the reflection it is called on. *)
Definition recordVisit (reflection : Reflection) : M (list Reflection) unit :=
  λ visited, (Normal (), visited ++ [reflection]).

(** The reflections that [validateLinks] runs its check on, in order,
    one entry per call. *)
Definition visits (project : ProjectReflection) : list Reflection :=
  (validateLinksWith recordVisit project []).2.

End Validation.
Export Validation.

(** ** Render events (lib/output/events.ts) *)

Module Events.

Record PageHeading := {
  link : jsstring;
  text : jsstring;
  level : option N;
  headingKind : option ReflectionKind;
  classes : option jsstring;
}.

(** Heading arrays are shared between an event and its sections, so they
    live in a store and are held by reference. *)
Abbreviation loc := positive.
Abbreviation Store := (gmap positive (list PageHeading)).

Record PageSection := {
  title : jsstring;
  headings : loc;
}.

Record PageEvent (Model : Type) := {
  model : Model;
  filename : option jsstring;
  url : option jsstring;
  contents : option jsstring;
  pageHeadings : loc;
  pageSections : list PageSection;
}.
Global Arguments model {Model} _.
Global Arguments filename {Model} _.
Global Arguments url {Model} _.
Global Arguments contents {Model} _.
Global Arguments pageHeadings {Model} _.
Global Arguments pageSections {Model} _.

(** The array literal [[]]: a new array, at a reference not in use. *)
Definition newArray (σ : Store) : loc * Store :=
  let l := fresh (dom σ) in (l, <[l := []]> σ).

(** [new PageEvent(model)]: the field initialisers run in order, then the
    constructor body. *)
Definition newPageEvent {Model} (model : Model) (σ : Store)
    : PageEvent Model * Store :=
  let '(l, σ') := newArray σ in
  ({| model := model; filename := None; url := None; contents := None;
      pageHeadings := l;
      pageSections := [ {| title := js ""; headings := l |} ] |}, σ').

Definition startNewSection {Model} (title : jsstring)
    (st : PageEvent Model * Store) : PageEvent Model * Store :=
  let '(event, σ) := st in
  let '(l, σ') := newArray σ in
  ({| model := model event; filename := filename event; url := url event;
      contents := contents event;
      pageHeadings := l;
      pageSections :=
        pageSections event ++ [ {| title := title; headings := l |} ] |}, σ').

(** What the code that collects headings does with an event:
    [event.pageHeadings.push(heading)]. *)
Definition recordHeading {Model} (heading : PageHeading)
    (st : PageEvent Model * Store) : PageEvent Model * Store :=
  let '(event, σ) := st in
  (event, alter (λ hs, hs ++ [heading]) (pageHeadings event) σ).

Inductive PageOp :=
| StartNewSection (title : jsstring)
| RecordHeading (heading : PageHeading).

Definition pageStep {Model} (st : PageEvent Model * Store) (op : PageOp)
    : PageEvent Model * Store :=
  match op with
  | StartNewSection title => startNewSection title st
  | RecordHeading heading => recordHeading heading st
  end.

(** The headings of a section, read through the store. *)
Definition sectionHeadings (σ : Store) (s : PageSection) : option (list PageHeading) :=
  σ !! headings s.

(** [Array.from({ length }, mapFn)] *)
Definition arrayFrom {A} (length : nat) (mapFn : nat → A) : list A :=
  mapFn <$> seq 0 length.

(** [array.splice(start, deleteCount)] on integral arguments: the array
    after the call. A negative [start] counts from the end, and both
    arguments are clamped to the array. *)
Definition splice {A} (start deleteCount : Z) (array : list A) : list A :=
  let len := Z.of_nat (length array) in
  let actualStart :=
    if (start <? 0)%Z then Z.max (len + start) 0 else Z.min start len in
  let actualDeleteCount :=
    Z.min (Z.max deleteCount 0) (len - actualStart) in
  take (Z.to_nat actualStart) array ++
  drop (Z.to_nat (actualStart + actualDeleteCount)) array.

Record IndexEvent := {
  searchResults : list Reflection;
  searchFields : list (gmap jsstring jsstring);
  searchFieldWeights : gmap jsstring Z;
}.

(** [new IndexEvent(searchResults)] *)
Definition newIndexEvent (searchResults : list Reflection) : IndexEvent :=
  {| searchResults := searchResults;
     searchFields := arrayFrom (length searchResults) (λ _, ∅);
     searchFieldWeights :=
       <[js "name" := 10%Z]> (<[js "comment" := 1%Z]>
         (<[js "document" := 1%Z]> ∅)) |}.

Definition removeResult (index : Z) (event : IndexEvent) : IndexEvent :=
  {| searchResults := splice index 1 (searchResults event);
     searchFields := splice index 1 (searchFields event);
     searchFieldWeights := searchFieldWeights event |}.

End Events.
Export Events.

(** ** Notions used to state the properties *)

Module Notions.

(** The text of a display part. *)
Definition partText (part : CommentDisplayPart) : jsstring :=
  match part with
  | TextPart text | CodePart text | InlineTagPart _ text _ => text
  end.

(** A target that is absent: [undefined], or the empty string, which an
    [if] cannot tell from [undefined]. *)
Definition targetAbsent (target : option LinkTarget) : Prop :=
  target = None ∨ target = Some (TargetString []).

Definition targetPlaceholder (target : option LinkTarget) : Prop :=
  ∃ symbol, target = Some (TargetSymbolId symbol).

(** A broken link: an inline tag with one of the three link tags whose
    target is absent or a placeholder. *)
Definition brokenLinkPart (part : CommentDisplayPart) : Prop :=
  match part with
  | InlineTagPart tag _ target =>
      (tag = js "@link" ∨ tag = js "@linkcode" ∨ tag = js "@linkplain") ∧
      (targetAbsent target ∨ targetPlaceholder target)
  | _ => False
  end.

Global Instance targetAbsent_dec target : Decision (targetAbsent target).
Proof. unfold targetAbsent. apply _. Defined.

Global Instance targetPlaceholder_dec target : Decision (targetPlaceholder target).
Proof.
  refine (match target with
          | Some (TargetSymbolId s) => left _
          | _ => right _
          end); unfold targetPlaceholder; [intros [? ?]; discriminate..| eauto | intros [? ?]; discriminate].
Defined.

Global Instance brokenLinkPart_dec part : Decision (brokenLinkPart part).
Proof. destruct part; simpl; apply _. Defined.

(** A target that is neither absent nor a placeholder: a reflection, or
    a string that is not empty. *)
Definition targetResolved (target : option LinkTarget) : Prop :=
  (∃ id, target = Some (TargetReflection id)) ∨
  (∃ c url, target = Some (TargetString (c :: url))).

(** The parts that are not broken links: text, code, inline tags that
    are not link tags, and inline tags with a resolved target. *)
Definition silentPart (part : CommentDisplayPart) : Prop :=
  match part with
  | TextPart _ | CodePart _ => True
  | InlineTagPart tag _ target =>
      ¬ (tag = js "@link" ∨ tag = js "@linkcode" ∨ tag = js "@linkplain") ∨
      targetResolved target
  end.

(** [needle] occurs in [s]. *)
Definition occursIn (needle s : jsstring) : Prop :=
  ∃ before after, s = before ++ needle ++ after.

(** [s'] is [s] with its first code unit out of [class] replaced by
    [replacement]. *)
Definition firstReplaced (class replacement s s' : jsstring) : Prop :=
  ∃ before c after,
    s = before ++ c :: after ∧ c ∈ class ∧ Forall (λ d, d ∉ class) before ∧
    s' = before ++ replacement ++ after.

(** A link text that looks like a package-scope reference typed without
    a module source indicator. *)
Definition looksScoped (broken : jsstring) : Prop :=
  js "@" `prefix_of` broken ∧ ¬ occursIn (js "!") broken.

(** Where a warning says the link was found. *)
Inductive LinkSource := InReadme | InDocument | InComment.

Definition plainWarning (source : LinkSource) (broken name : jsstring)
    : TranslatedString :=
  match source with
  | InReadme => failed_to_resolve_link_to_0_in_readme_for_1 broken name
  | InDocument => failed_to_resolve_link_to_0_in_document_1 broken name
  | InComment => failed_to_resolve_link_to_0_in_comment_for_1 broken name
  end.

Definition suggestionWarning (source : LinkSource)
    (broken name suggested : jsstring) : TranslatedString :=
  match source with
  | InReadme =>
      failed_to_resolve_link_to_0_in_readme_for_1_may_have_meant_2
        broken name suggested
  | InDocument =>
      failed_to_resolve_link_to_0_in_document_1_may_have_meant_2
        broken name suggested
  | InComment =>
      failed_to_resolve_link_to_0_in_comment_for_1_may_have_meant_2
        broken name suggested
  end.

(** The template of a message and its arguments. *)
Definition warningSource (message : TranslatedString) : LinkSource :=
  match message with
  | failed_to_resolve_link_to_0_in_readme_for_1 _ _
  | failed_to_resolve_link_to_0_in_readme_for_1_may_have_meant_2 _ _ _ =>
      InReadme
  | failed_to_resolve_link_to_0_in_document_1 _ _
  | failed_to_resolve_link_to_0_in_document_1_may_have_meant_2 _ _ _ =>
      InDocument
  | failed_to_resolve_link_to_0_in_comment_for_1 _ _
  | failed_to_resolve_link_to_0_in_comment_for_1_may_have_meant_2 _ _ _ =>
      InComment
  end.

Definition warningBroken (message : TranslatedString) : jsstring :=
  match message with
  | failed_to_resolve_link_to_0_in_readme_for_1 a0 _
  | failed_to_resolve_link_to_0_in_readme_for_1_may_have_meant_2 a0 _ _
  | failed_to_resolve_link_to_0_in_document_1 a0 _
  | failed_to_resolve_link_to_0_in_document_1_may_have_meant_2 a0 _ _
  | failed_to_resolve_link_to_0_in_comment_for_1 a0 _
  | failed_to_resolve_link_to_0_in_comment_for_1_may_have_meant_2 a0 _ _ =>
      a0
  end.

Definition warningSuggestion (message : TranslatedString) : option jsstring :=
  match message with
  | failed_to_resolve_link_to_0_in_readme_for_1_may_have_meant_2 _ _ a2
  | failed_to_resolve_link_to_0_in_document_1_may_have_meant_2 _ _ a2
  | failed_to_resolve_link_to_0_in_comment_for_1_may_have_meant_2 _ _ a2 =>
      Some a2
  | _ => None
  end.

(** The warning the validator issues for one broken link text. *)
Definition report (source : LinkSource) (name broken : jsstring)
    : TranslatedString :=
  if startsWith broken (js "@") && negb (includes broken (js "!")) then
    suggestionWarning source broken name (replaceClass (js ".#~") (js "!") broken)
  else plainWarning source broken name.

(** The four sources of links of a reflection. *)
Definition readmeLinks (r : Reflection) : list jsstring :=
  if isProject r || isDeclaration r
  then getBrokenPartLinks (default [] (readme r)) else [].

Definition documentLinks (r : Reflection) : list jsstring :=
  if isDocument r then getBrokenPartLinks (documentContent r) else [].

Definition commentLinks (r : Reflection) : list jsstring :=
  getBrokenLinks (comment r).

Definition unionSummaryLinks (r : Reflection) : list jsstring :=
  if isDeclaration r && kindOf r KindTypeAlias then
    match type r with
    | Some (UnionType (Some elementSummaries)) =>
        concat (getBrokenPartLinks <$> elementSummaries)
    | _ => []
    end
  else [].

Definition brokenLinksOf (r : Reflection) : list jsstring :=
  readmeLinks r ++ documentLinks r ++ commentLinks r ++ unionSummaryLinks r.

(** The warnings of one reflection, source by source. *)
Definition warningsOf (r : Reflection) : list TranslatedString :=
  (report InReadme (friendlyFullName r) <$> readmeLinks r) ++
  (report InDocument (friendlyFullName r) <$> documentLinks r) ++
  (report InComment (friendlyFullName r) <$> commentLinks r) ++
  (report InComment (friendlyFullName r) <$> unionSummaryLinks r).

(** The warning [w] is the one the validator issues for the text
    [broken], for some source and some name. *)
Definition reported (broken : jsstring) (w : TranslatedString) : Prop :=
  ∃ source name, w = report source name broken.

(** The classification of a warning for the text [broken]: a text that
    looks scoped gets the variant with a suggestion, which is the text
    with its first [.], [#] or [~] replaced by [!]; any other text gets
    the plain variant, which carries the text only. *)
Definition classified (broken : jsstring) (w : TranslatedString) : Prop :=
  (looksScoped broken →
     ∃ source name suggested,
       w = suggestionWarning source broken name suggested ∧
       (Exists (λ c, c ∈ js ".#~") broken →
          firstReplaced (js ".#~") (js "!") broken suggested) ∧
       (Forall (λ c, c ∉ js ".#~") broken → suggested = broken)) ∧
  (¬ looksScoped broken →
     ∃ source name, w = plainWarning source broken name).

(** All the broken links that a run over the reflections [rs] finds. *)
Definition brokenLinksFound (rs : list Reflection) : list jsstring :=
  concat (brokenLinksOf <$> rs).

(** The reflections stored in the mapping, by ascending id, and then the
    root when its id is not a key. *)
Definition stored (project : ProjectReflection) : list Reflection :=
  omap (λ id, reflections project !! id) (forInKeys (reflections project)).

Definition checked (project : ProjectReflection) : list Reflection :=
  stored project ++
  (if hasProperty (projectId project) (reflections project)
   then [] else [asReflection project]).

(** Every reflection is stored under its own id. *)
Definition storedUnderOwnId (project : ProjectReflection) : Prop :=
  map_Forall (λ k r, id r = k) (reflections project).

Global Instance storedUnderOwnId_dec project :
  Decision (storedUnderOwnId project).
Proof. unfold storedUnderOwnId. apply _. Defined.

(** What holds of every page event: it has a section, the array that
    collects headings is the array of the last section, and the arrays
    of all sections are allocated. *)
Definition pageInvariant {Model} (st : PageEvent Model * Store) : Prop :=
  headings <$> last (pageSections st.1) = Some (pageHeadings st.1) ∧
  Forall (λ s, headings s ∈ dom st.2) (pageSections st.1).

End Notions.
Export Notions.

(** ** Sample data *)

Module Samples.

Definition brokenLink (text : string) : CommentDisplayPart :=
  InlineTagPart (js "@link") (js text) None.

Definition commentOf (parts : list CommentDisplayPart) : Comment :=
  {| summary := parts; blockTags := [] |}.

(** A class whose comment links to a scoped package without [!]. *)
Definition widget : Reflection :=
  {| id := 2; kind := KindClass;
     comment := Some (commentOf [TextPart (js "See "); brokenLink " @scope/pkg.Thing "]);
     friendlyFullName := js "Widget";
     variant := DeclarationVariant None None |}.

(** A function whose comment links to a bare scope. *)
Definition helper : Reflection :=
  {| id := 5; kind := KindFunction;
     comment := Some (commentOf [brokenLink "@scope"]);
     friendlyFullName := js "helper";
     variant := DeclarationVariant None None |}.

(** A union type alias with a broken link in a member summary. *)
Definition shape : Reflection :=
  {| id := 3; kind := KindTypeAlias; comment := None;
     friendlyFullName := js "Shape";
     variant :=
       DeclarationVariant None
         (Some (UnionType (Some [[brokenLink "Foo"]; []]))) |}.

(** The same alias with the broken link in its comment instead. *)
Definition shapeCommented : Reflection :=
  {| id := 3; kind := KindTypeAlias;
     comment := Some (commentOf [brokenLink "Foo"]);
     friendlyFullName := js "Shape";
     variant := DeclarationVariant None (Some (UnionType None)) |}.

(** A project that is not a key of its own mapping. *)
Definition demo : ProjectReflection :=
  {| projectId := 0; projectComment := None; projectName := js "demo";
     projectReadme := Some [brokenLink "Foo.Bar"];
     reflections := {[ 5%N := helper; 2%N := widget; 3%N := shape ]} |}.

End Samples.

(** ** Further notions *)

Module Observations.

(** A text is trimmed when neither its first nor its last code unit is
    one that [trim] strips. *)
Definition trimmed (s : jsstring) : Prop :=
  (∀ c, head s = Some c → isTrimmed c = false) ∧
  (∀ c, last s = Some c → isTrimmed c = false).

(** The name argument of a warning. *)
Definition warningName (message : TranslatedString) : jsstring :=
  match message with
  | failed_to_resolve_link_to_0_in_readme_for_1 _ a1
  | failed_to_resolve_link_to_0_in_readme_for_1_may_have_meant_2 _ a1 _
  | failed_to_resolve_link_to_0_in_document_1 _ a1
  | failed_to_resolve_link_to_0_in_document_1_may_have_meant_2 _ a1 _
  | failed_to_resolve_link_to_0_in_comment_for_1 _ a1
  | failed_to_resolve_link_to_0_in_comment_for_1_may_have_meant_2 _ a1 _ =>
      a1
  end.

(** All the display parts of a comment: the summary, then the content of
    the block tags in order. *)
Definition commentParts (comment : Comment) : list CommentDisplayPart :=
  summary comment ++ concat (content <$> blockTags comment).

(** The two arrays of an index event go index by index. *)
Definition aligned (event : IndexEvent) : Prop :=
  length (searchFields event) = length (searchResults event).

(** The titles and the headings that a sequence of page operations
    passes in, each in order. *)
Definition titlesOf (ops : list PageOp) : list jsstring :=
  omap (λ op, match op with StartNewSection t => Some t | _ => None end) ops.

Definition headingsOf (ops : list PageOp) : list PageHeading :=
  omap (λ op, match op with RecordHeading h => Some h | _ => None end) ops.

(** The headings of all sections of a page, section after section. *)
Definition allHeadings {Model} (st : PageEvent Model * Store) : list PageHeading :=
  concat ((λ s, default [] (sectionHeadings st.2 s)) <$> pageSections st.1).

(** The sample project, registered in its own mapping. *)
Definition demoRegistered : ProjectReflection :=
  {| projectId := 0; projectComment := None; projectName := js "demo";
     projectReadme := Some [Samples.brokenLink "Foo.Bar"];
     reflections := <[0%N := asReflection Samples.demo]> (reflections Samples.demo) |}.

(** A project with nothing in its mapping. *)
Definition demoEmpty : ProjectReflection :=
  {| projectId := 0; projectComment := None; projectName := js "demo";
     projectReadme := Some [Samples.brokenLink "Foo.Bar"];
     reflections := ∅ |}.

(** The index at which [splice(start, 1)] cuts an array of [len]
    entries: a negative [start] counts from the end, and the result is
    clamped to the array. *)
Definition spliceStart (start : Z) (len : nat) : nat :=
  Z.to_nat (if (start <? 0)%Z then Z.max (Z.of_nat len + start) 0
            else Z.min start (Z.of_nat len)).

(** The sections of a page have arrays of their own: next to the page
    invariant, no array is the array of two sections. *)
Definition pageSeparate {Model} (st : PageEvent Model * Store) : Prop :=
  pageInvariant st ∧ NoDup (headings <$> pageSections st.1).

End Observations.
Export Observations.

(** * Properties *)

(** ** String primitives *)

Section strings.
Implicit Types s search needle class replacement : jsstring.

Lemma startsWith_prefix s search :
  startsWith s search = true ↔ search `prefix_of` s.
Proof.
  revert s. induction search as [|c search IH]; intros s; simpl.
  - split; [intros _; apply prefix_nil | done].
  - destruct s as [|d s].
    + split; [done | intros H; by apply prefix_nil_inv in H].
    + rewrite andb_true_iff, N.eqb_eq, IH. split.
      * intros [-> H]. by apply prefix_cons.
      * intros H. split; [by eapply prefix_cons_inv_1 | by eapply prefix_cons_inv_2].
Qed.

Lemma includes_occursIn s needle :
  includes s needle = true ↔ occursIn needle s.
Proof.
  induction s as [|d s IH]; simpl.
  - rewrite orb_false_r, startsWith_prefix. split.
    + intros [k ->]. exists [], k. done.
    + intros (before & after & H). symmetry in H.
      apply app_eq_nil in H as [-> H]. apply app_eq_nil in H as [-> _].
      apply prefix_nil.
  - rewrite orb_true_iff, startsWith_prefix, IH. split.
    + intros [[k ->] | (before & after & ->)].
      * exists [], k. done.
      * exists (d :: before), after. done.
    + intros (before & after & H). destruct before as [|b before]; simpl in H.
      * left. exists after. done.
      * right. injection H as -> ->. by exists before, after.
Qed.

Lemma classMatches_elem class c : classMatches class c = true ↔ c ∈ class.
Proof. unfold classMatches. apply bool_decide_eq_true. Qed.

Lemma replaceClass_no_match class replacement s :
  Forall (λ d, d ∉ class) s → replaceClass class replacement s = s.
Proof.
  induction 1 as [|d s Hd _ IH]; simpl; [done|].
  destruct (classMatches class d) eqn:E.
  - by apply classMatches_elem in E.
  - by rewrite IH.
Qed.

Lemma replaceClass_first class replacement s :
  Exists (λ d, d ∈ class) s →
  firstReplaced class replacement s (replaceClass class replacement s).
Proof.
  induction s as [|d s IH]; intros H; [by apply Exists_nil in H|]. simpl.
  destruct (classMatches class d) eqn:E.
  - apply classMatches_elem in E. exists [], d, s. done.
  - assert (d ∉ class) as Hd.
    { intros Hin. apply classMatches_elem in Hin. congruence. }
    apply Exists_cons in H as [H|H]; [done|].
    destruct (IH H) as (before & c & after & -> & Hc & Hb & ->).
    exists (d :: before), c, after. repeat split; try done. by constructor.
Qed.

(** The replaced text is determined by the original. *)
Lemma firstReplaced_unique class replacement s s1 s2 :
  firstReplaced class replacement s s1 →
  firstReplaced class replacement s s2 → s1 = s2.
Proof.
  intros (b1 & c1 & a1 & -> & Hc1 & Hb1 & ->) (b2 & c2 & a2 & E2 & Hc2 & Hb2 & ->).
  revert b2 E2 Hb2. induction b1 as [|x b1 IH]; intros b2 E2 Hb2.
  - destruct b2 as [|y b2]; simpl in E2.
    + by injection E2 as -> ->.
    + injection E2 as -> ->. by apply Forall_cons in Hb2 as [? _].
  - destruct b2 as [|y b2]; simpl in E2.
    + injection E2 as -> <-. by apply Forall_cons in Hb1 as [? _].
    + injection E2 as -> E2. apply Forall_cons in Hb1 as [_ Hb1].
      apply Forall_cons in Hb2 as [_ Hb2]. simpl. f_equal.
      by eapply IH.
Qed.

Lemma looksScoped_decide broken :
  startsWith broken (js "@") && negb (includes broken (js "!")) = true
  ↔ looksScoped broken.
Proof.
  unfold looksScoped.
  rewrite andb_true_iff, negb_true_iff, startsWith_prefix, <- includes_occursIn.
  by rewrite not_true_iff_false.
Qed.

End strings.

(** ** Extraction of broken links *)

Section extraction.
Implicit Types (part : CommentDisplayPart) (parts : list CommentDisplayPart).

Lemma linkTags_elem tag :
  arrayIncludes linkTags tag = true
  ↔ tag = js "@link" ∨ tag = js "@linkcode" ∨ tag = js "@linkplain".
Proof.
  unfold arrayIncludes, linkTags. rewrite bool_decide_eq_true.
  rewrite !elem_of_cons, elem_of_nil. tauto.
Qed.

Lemma unresolved_decide target :
  negb (truthy target) || instanceofReflectionSymbolId target = true
  ↔ targetAbsent target ∨ targetPlaceholder target.
Proof.
  unfold targetAbsent, targetPlaceholder.
  destruct target as [[i|[|c u]|s]|]; simpl; split; try done; eauto.
  - intros [[?|?]|[? ?]]; discriminate.
  - intros [[?|?]|[? ?]]; discriminate.
Qed.

Lemma brokenLinkPart_decide tag text target :
  arrayIncludes linkTags tag &&
    (negb (truthy target) || instanceofReflectionSymbolId target) = true
  ↔ brokenLinkPart (InlineTagPart tag text target).
Proof. simpl. by rewrite andb_true_iff, linkTags_elem, unresolved_decide. Qed.

Lemma silentPart_not_broken part : silentPart part → ¬ brokenLinkPart part.
Proof.
  destruct part as [| |tag text target]; simpl; [tauto..|].
  intros [Htag | [[i ->] | (c & u & ->)]] [Htag' Ht]; [tauto|..];
    destruct Ht as [[?|?]|[? ?]]; discriminate.
Qed.

Lemma getBrokenPartLinks_snoc parts part :
  getBrokenPartLinks (parts ++ [part]) =
  getBrokenPartLinks parts ++
    (if decide (brokenLinkPart part) then [trim (partText part)] else []).
Proof.
  unfold getBrokenPartLinks. rewrite foldl_app. simpl.
  destruct part as [text|text|tag text target]; simpl.
  - by rewrite app_nil_r.
  - by rewrite app_nil_r.
  - pose proof (brokenLinkPart_decide tag text target) as Hd.
    destruct (arrayIncludes linkTags tag &&
              (negb (truthy target) || instanceofReflectionSymbolId target)).
    + rewrite decide_True; [done | by apply Hd].
    + rewrite decide_False, app_nil_r; [done|].
      intros H. apply Hd in H. discriminate.
Qed.

Lemma getBrokenPartLinks_filter parts :
  getBrokenPartLinks parts =
  (λ part, trim (partText part)) <$> filter brokenLinkPart parts.
Proof.
  induction parts as [|part parts IH] using rev_ind; [done|].
  rewrite getBrokenPartLinks_snoc, IH, filter_app, fmap_app. f_equal.
  rewrite filter_cons, filter_nil. by destruct (decide _).
Qed.

Lemma getBrokenPartLinks_app parts1 parts2 :
  getBrokenPartLinks (parts1 ++ parts2) =
  getBrokenPartLinks parts1 ++ getBrokenPartLinks parts2.
Proof. by rewrite !getBrokenPartLinks_filter, filter_app, fmap_app. Qed.

Lemma getBrokenLinks_blockTags (acc : list jsstring) (tags : list CommentTag) :
  foldl (λ links tag, links ++ getBrokenPartLinks (content tag)) acc tags =
  acc ++ concat ((λ tag, getBrokenPartLinks (content tag)) <$> tags).
Proof.
  revert acc. induction tags as [|tag tags IH]; intros acc; simpl.
  - by rewrite app_nil_r.
  - by rewrite IH, app_assoc.
Qed.

End extraction.

(** C2: [getBrokenPartLinks] returns exactly the trimmed texts, in order,
    of the parts that are inline tags with one of the three link tags and
    a target that is absent or a [ReflectionSymbolId] placeholder. Every
    other part (text, code, an inline tag with another tag, an inline tag
    with any other target that is not empty) contributes nothing: leaving
    it out does not change the result. *)
Theorem getBrokenPartLinks_exact :
  (∀ parts,
     getBrokenPartLinks parts =
     (λ part, trim (partText part)) <$> filter brokenLinkPart parts) ∧
  (∀ before part after,
     silentPart part →
     getBrokenPartLinks (before ++ part :: after) =
     getBrokenPartLinks (before ++ after)) ∧
  (∀ parts, Forall silentPart parts → getBrokenPartLinks parts = []).
Proof.
  split; [exact getBrokenPartLinks_filter|]. split.
  - intros before part after Hs. apply silentPart_not_broken in Hs.
    rewrite !getBrokenPartLinks_filter, !filter_app, filter_cons.
    by rewrite decide_False.
  - intros parts Hs. rewrite getBrokenPartLinks_filter.
    induction Hs as [|part parts Hp _ IH]; [done|].
    apply silentPart_not_broken in Hp.
    rewrite filter_cons, decide_False; done.
Qed.

(** C9: the broken links of a comment are those of its summary followed
    by those of the content of each block tag, in the order of the block
    tags; without a comment there are none. *)
Theorem getBrokenLinks_summary_then_blockTags :
  getBrokenLinks None = [] ∧
  ∀ comment,
    getBrokenLinks (Some comment) =
    getBrokenPartLinks (summary comment) ++
    concat ((λ tag, getBrokenPartLinks (content tag)) <$> blockTags comment).
Proof.
  split; [done|]. intros comment. simpl. apply getBrokenLinks_blockTags.
Qed.

(** ** Running the validator *)

Section running.

Lemma bind_normal {S A B} (m : M S A) (f : A → M S B) s a s' :
  m s = (Normal a, s') → (m ≫= f) s = f a s'.
Proof. unfold mbind, M_bind. by intros ->. Qed.

Lemma when_run {S} (b : bool) (body : M S unit) s :
  when b body s = if b then body s else (Normal (), s).
Proof. by destruct b. Qed.

(** A loop whose body only appends to the state. *)
Lemma forOf_append {A X} (out : A → list X) (body : A → M (list X) unit) xs :
  (∀ x s, x ∈ xs → body x s = (Normal (), s ++ out x)) →
  ∀ s, forOf xs body s = (Normal (), s ++ concat (out <$> xs)).
Proof.
  induction xs as [|x xs IH]; intros Hbody s; simpl.
  - by rewrite app_nil_r.
  - erewrite bind_normal; [|apply Hbody; by left].
    rewrite IH, app_assoc; [done|].
    intros y s' Hy. apply Hbody. by right.
Qed.

Lemma forOf_report source name links logger :
  forOf links (λ broken,
    if startsWith broken (js "@") && negb (includes broken (js "!")) then
      warn (suggestionWarning source broken name
              (replaceClass (js ".#~") (js "!") broken))
    else warn (plainWarning source broken name)) logger =
  (Normal (), logger ++ (report source name <$> links)).
Proof.
  rewrite (forOf_append (λ broken, [report source name broken])).
  - f_equal. f_equal. induction links; simpl; [done | by f_equal].
  - intros broken s _. unfold report. by destruct (_ && _).
Qed.

Lemma checkReflection_run r logger :
  checkReflection r logger = (Normal (), logger ++ warningsOf r).
Proof.
  unfold checkReflection, warningsOf.
  set (name := friendlyFullName r).
  rewrite (bind_normal _ _ logger ()
             (logger ++ (report InReadme name <$> readmeLinks r))); cycle 1.
  { rewrite when_run. unfold readmeLinks.
    destruct (isProject r || isDeclaration r); [|by rewrite app_nil_r].
    apply (forOf_report InReadme). }
  rewrite (bind_normal _ _ _ ()
             ((logger ++ (report InReadme name <$> readmeLinks r)) ++
              (report InDocument name <$> documentLinks r))); cycle 1.
  { rewrite when_run. unfold documentLinks.
    destruct (isDocument r); [|by rewrite app_nil_r].
    apply (forOf_report InDocument). }
  rewrite (bind_normal _ _ _ _ _ (forOf_report InComment name _ _)).
  rewrite <- !app_assoc. unfold unionSummaryLinks.
  destruct (isDeclaration r && kindOf r KindTypeAlias);
    [|by rewrite app_nil_r].
  destruct (type r) as [[[summaries|]| |]|];
    try (by rewrite app_nil_r).
  by rewrite (forOf_report InComment), <- !app_assoc.
Qed.

End running.

(** ** The traversal *)

Section traversal.
Context {V : Type}.
Implicit Types (m : gmap N V) (k : N).

Lemma forInKeys_Permutation m : forInKeys m ≡ₚ elements (dom m).
Proof. apply merge_sort_Permutation. Qed.

Lemma forInKeys_NoDup m : NoDup (forInKeys m).
Proof. rewrite forInKeys_Permutation. apply NoDup_elements. Qed.

Lemma forInKeys_elem m k : k ∈ forInKeys m ↔ k ∈ dom m.
Proof. rewrite forInKeys_Permutation. apply elem_of_elements. Qed.


Lemma hasProperty_dom k m : hasProperty k m = true ↔ k ∈ dom m.
Proof. apply bool_decide_eq_true. Qed.

(** Reading the keys of a mapping gives its values, one per key. *)
Lemma omap_lookup_keys m (keys : list N) :
  Forall (λ k, k ∈ dom m) keys →
  Forall2 (λ k v, m !! k = Some v) keys (omap (λ k, m !! k) keys).
Proof.
  induction 1 as [|k keys Hk _ IH]; simpl; [constructor|].
  apply elem_of_dom in Hk as [v Hv]. rewrite Hv. by constructor.
Qed.

End traversal.

Section visiting.

Lemma concat_singletons {A} (l : list A) : concat ((λ x, [x]) <$> l) = l.
Proof. induction l; simpl; [done | by f_equal]. Qed.

Lemma validateLinksWith_append {X} (check : Reflection → M (list X) unit)
    (out : Reflection → list X) :
  (∀ r s, check r s = (Normal (), s ++ out r)) →
  ∀ project s,
    validateLinksWith check project s =
    (Normal (), s ++ concat (out <$> checked project)).
Proof.
  intros Hcheck project s. unfold validateLinksWith, checked, stored.
  set (m := reflections project).
  rewrite (bind_normal _ _ s ()
    (s ++ concat (out <$> omap (λ id, m !! id) (forInKeys m)))); cycle 1.
  { rewrite (forOf_append
      (λ id, match m !! id with Some r => out r | None => [] end)).
    - f_equal. f_equal.
      induction (forInKeys m) as [|k keys IH]; simpl; [done|].
      destruct (m !! k); simpl; [f_equal|]; exact IH.
    - intros k s' Hk. apply forInKeys_elem, elem_of_dom in Hk as [r Hr].
      rewrite Hr. apply Hcheck. }
  rewrite when_run, fmap_app, concat_app, app_assoc.
  destruct (hasProperty (projectId project) m); simpl.
  - by rewrite app_nil_r.
  - by rewrite Hcheck, app_nil_r.
Qed.

Lemma visits_checked project : visits project = checked project.
Proof.
  unfold visits.
  rewrite (validateLinksWith_append recordVisit (λ r, [r])); [|done].
  simpl. apply concat_singletons.
Qed.

Lemma validateLinks_run project logger :
  validateLinks project logger =
  (Normal (), logger ++ concat (warningsOf <$> checked project)).
Proof.
  unfold validateLinks.
  apply validateLinksWith_append. apply checkReflection_run.
Qed.

Lemma forOf_checkReflection rs logger :
  forOf rs checkReflection logger =
  (Normal (), logger ++ concat (warningsOf <$> rs)).
Proof. apply forOf_append. intros r s _. apply checkReflection_run. Qed.

Lemma stored_lookup project :
  Forall2 (λ k r, reflections project !! k = Some r)
          (forInKeys (reflections project)) (stored project).
Proof.
  apply omap_lookup_keys, Forall_forall. intros k. apply forInKeys_elem.
Qed.

Lemma stored_ids project :
  storedUnderOwnId project →
  id <$> stored project = forInKeys (reflections project).
Proof.
  intros Hown. pose proof (stored_lookup project) as H.
  induction H as [|k r keys rs Hk _ IH]; simpl; [done|].
  f_equal; [by apply Hown in Hk | done].
Qed.

End visiting.

(** C3: [validateLinks] runs the check once for every key of
    [project.reflections], on the reflection stored under that key, and
    once more on the root exactly when the root's id is not a key. The run
    of [validateLinks] is the run of the check over these visits, and when
    every reflection is stored under its own id, every id of the mapping
    and the id of the root is visited once, none twice and none never. *)
Theorem validateLinks_visits_once project :
  (∀ logger,
     validateLinks project logger =
     forOf (visits project) checkReflection logger) ∧
  (∃ keys entries,
     NoDup keys ∧
     (∀ k, k ∈ keys ↔ k ∈ dom (reflections project)) ∧
     Forall2 (λ k r, reflections project !! k = Some r) keys entries ∧
     visits project =
       entries ++
       if decide (projectId project ∈ dom (reflections project))
       then [] else [asReflection project]) ∧
  (storedUnderOwnId project →
     NoDup (id <$> visits project) ∧
     ∀ i, i ∈ id <$> visits project
          ↔ i ∈ dom (reflections project) ∨ i = projectId project).
Proof.
  assert (visits project =
          stored project ++
          if decide (projectId project ∈ dom (reflections project))
          then [] else [asReflection project]) as Hvisits.
  { rewrite visits_checked. unfold checked, hasProperty.
    destruct (decide _);
      [rewrite bool_decide_eq_true_2 | rewrite bool_decide_eq_false_2]; done. }
  split; [|split].
  - intros logger.
    by rewrite validateLinks_run, forOf_checkReflection, visits_checked.
  - exists (forInKeys (reflections project)), (stored project).
    split; [apply forInKeys_NoDup|]. split; [apply forInKeys_elem|].
    split; [apply stored_lookup | exact Hvisits].
  - intros Hown. rewrite Hvisits, fmap_app, (stored_ids _ Hown).
    destruct (decide _) as [Hin|Hout]; simpl.
    + rewrite app_nil_r. split; [apply forInKeys_NoDup|].
      intros i. rewrite forInKeys_elem. split; [tauto|].
      by intros [?| ->].
    + split.
      * apply NoDup_app. split; [apply forInKeys_NoDup|].
        split; [|apply NoDup_singleton].
        intros i Hi ->%list_elem_of_singleton. by apply forInKeys_elem in Hi.
      * intros i.
        by rewrite elem_of_app, forInKeys_elem, list_elem_of_singleton.
Qed.

Lemma validateLinks_visits_once_witness :
  NoDup (id <$> visits Samples.demo) ∧
  ∀ i, i ∈ id <$> visits Samples.demo
       ↔ i ∈ dom (reflections Samples.demo) ∨ i = projectId Samples.demo.
Proof.
  apply (proj2 (proj2 (validateLinks_visits_once Samples.demo))).
  apply (bool_decide_unpack (storedUnderOwnId Samples.demo)).
  vm_compute. exact I.
Defined.

Example visits_demo :
  visits Samples.demo =
  [Samples.widget; Samples.shape; Samples.helper; asReflection Samples.demo].
Proof. vm_compute. reflexivity. Qed.

(** ** Classification of the warnings *)

Section classification.

Lemma report_scoped source name broken :
  looksScoped broken →
  report source name broken =
  suggestionWarning source broken name
    (replaceClass (js ".#~") (js "!") broken).
Proof. intros H%looksScoped_decide. unfold report. by rewrite H. Qed.

Lemma report_plain source name broken :
  ¬ looksScoped broken →
  report source name broken = plainWarning source broken name.
Proof.
  intros H. unfold report.
  destruct (_ && _) eqn:E; [|done]. by apply looksScoped_decide in E.
Qed.

Lemma warningBroken_report source name broken :
  warningBroken (report source name broken) = broken.
Proof. unfold report. by destruct (_ && _), source. Qed.

Lemma warningSource_report source name broken :
  warningSource (report source name broken) = source.
Proof. unfold report. by destruct (_ && _), source. Qed.

Lemma reported_classified broken w : reported broken w → classified broken w.
Proof.
  intros (source & name & ->). split; intros H.
  - exists source, name, (replaceClass (js ".#~") (js "!") broken).
    split; [by apply report_scoped|]. split.
    + apply replaceClass_first.
    + apply replaceClass_no_match.
  - exists source, name. by apply report_plain.
Qed.

Lemma fmap_reported source name links :
  Forall2 reported links (report source name <$> links).
Proof.
  induction links; simpl; constructor; [by exists source, name | done].
Qed.

Lemma warningsOf_reported r : Forall2 reported (brokenLinksOf r) (warningsOf r).
Proof.
  unfold brokenLinksOf, warningsOf.
  repeat apply Forall2_app; apply fmap_reported.
Qed.

Lemma found_reported rs :
  Forall2 reported (brokenLinksFound rs) (concat (warningsOf <$> rs)).
Proof.
  unfold brokenLinksFound. induction rs as [|r rs IH]; simpl; [constructor|].
  apply Forall2_app; [apply warningsOf_reported | done].
Qed.

Lemma reported_broken links ws :
  Forall2 reported links ws → warningBroken <$> ws = links.
Proof.
  induction 1 as [|b w links ws (source & name & ->) _ IH]; simpl; [done|].
  rewrite warningBroken_report. f_equal. exact IH.
Qed.

End classification.

(** C1: every broken link text that [validateLinks] finds is reported by
    one warning, in order. When the text starts with [@] and contains no
    [!], the warning is the variant with a suggestion, and the suggested
    text is the broken text with the first of its [.], [#] and [~]
    replaced by [!]; otherwise the warning is the plain variant with the
    text as it is. The link [@scope/pkg.Thing] is reported with the
    suggestion [@scope/pkg!Thing]. *)
Theorem broken_links_classified :
  (∀ project logger,
     ∃ ws, validateLinks project logger = (Normal (), logger ++ ws) ∧
           Forall2 classified (brokenLinksFound (visits project)) ws) ∧
  checkReflection Samples.widget [] =
    (Normal (),
     [failed_to_resolve_link_to_0_in_comment_for_1_may_have_meant_2
        (js "@scope/pkg.Thing") (js "Widget") (js "@scope/pkg!Thing")]).
Proof.
  split; [|by vm_compute].
  intros project logger. exists (concat (warningsOf <$> checked project)).
  split; [apply validateLinks_run|]. rewrite visits_checked.
  eapply Forall2_impl; [apply found_reported | apply reported_classified].
Qed.

(** C10: a broken link text that starts with [@] and contains none of
    [!], [.], [#] and [~] is still reported by the variant with a
    suggestion, and the suggested text is the broken text itself. The
    link [@scope] is reported with the suggestion [@scope]. *)
Theorem suggestion_without_separator :
  (∀ project logger,
     ∃ ws, validateLinks project logger = (Normal (), logger ++ ws) ∧
           Forall2 (λ broken w,
                      looksScoped broken →
                      Forall (λ c, c ∉ js ".#~") broken →
                      ∃ source name,
                        w = suggestionWarning source broken name broken)
                   (brokenLinksFound (visits project)) ws) ∧
  checkReflection Samples.helper [] =
    (Normal (),
     [failed_to_resolve_link_to_0_in_comment_for_1_may_have_meant_2
        (js "@scope") (js "helper") (js "@scope")]).
Proof.
  split; [|by vm_compute].
  intros project logger. exists (concat (warningsOf <$> checked project)).
  split; [apply validateLinks_run|]. rewrite visits_checked.
  eapply Forall2_impl; [apply found_reported|]. simpl.
  intros broken w (source & name & ->) Hscoped Hnone.
  exists source, name.
  by rewrite report_scoped, replaceClass_no_match.
Qed.

(** C7: [validateLinks] completes normally with no value, keeps the
    warnings that the logger already holds, and adds one warning for each
    broken link it finds, in order, each carrying the text of its link;
    when it finds no broken link the logger is left as it was. The
    project is an argument that is only read. *)
Theorem validateLinks_only_warns project logger :
  ∃ ws, validateLinks project logger = (Normal (), logger ++ ws) ∧
        warningBroken <$> ws = brokenLinksFound (visits project) ∧
        (brokenLinksFound (visits project) = [] →
           validateLinks project logger = (Normal (), logger)).
Proof.
  exists (concat (warningsOf <$> checked project)).
  pose proof (found_reported (checked project)) as Hr.
  rewrite visits_checked, validateLinks_run.
  split; [done|]. split; [by apply reported_broken|].
  intros Hnone. rewrite Hnone in Hr. apply Forall2_nil_inv_l in Hr.
  by rewrite Hr, app_nil_r.
Qed.

(** ** The templates of the four sources *)

(** C4, as the claim states it, fails: a broken link in a member summary
    of a union is reported with the template of the comment source, so
    the warning does not differ from the one for the same link in the
    comment of the same reflection. *)
Lemma union_summary_reported_as_comment :
  unionSummaryLinks Samples.shape = [js "Foo"] ∧
  commentLinks Samples.shape = [] ∧
  unionSummaryLinks Samples.shapeCommented = [] ∧
  commentLinks Samples.shapeCommented = [js "Foo"] ∧
  checkReflection Samples.shape [] =
    (Normal (),
     [failed_to_resolve_link_to_0_in_comment_for_1 (js "Foo") (js "Shape")]) ∧
  checkReflection Samples.shapeCommented [] = checkReflection Samples.shape [].
Proof. repeat split; by vm_compute. Qed.

(** C4, amended: the readme, the document content and the comment each
    have their own pair of templates, six distinct templates in all; the
    links of the member summaries of a union have no templates of their
    own and are reported with the pair of the comment source. The
    warnings of a reflection come source by source, one per broken link,
    each carrying its link. *)
Theorem six_templates_by_source :
  (∀ r logger,
     ∃ fromReadme fromDocument fromComment fromUnion,
       checkReflection r logger =
         (Normal (),
          logger ++ fromReadme ++ fromDocument ++ fromComment ++ fromUnion) ∧
       (warningBroken <$> fromReadme = readmeLinks r ∧
        Forall (λ w, warningSource w = InReadme) fromReadme) ∧
       (warningBroken <$> fromDocument = documentLinks r ∧
        Forall (λ w, warningSource w = InDocument) fromDocument) ∧
       (warningBroken <$> fromComment = commentLinks r ∧
        Forall (λ w, warningSource w = InComment) fromComment) ∧
       (warningBroken <$> fromUnion = unionSummaryLinks r ∧
        Forall (λ w, warningSource w = InComment) fromUnion)) ∧
  (∀ source source' broken broken' name name' suggested suggested',
     plainWarning source broken name
       ≠ suggestionWarning source' broken' name' suggested' ∧
     (source ≠ source' →
        plainWarning source broken name ≠ plainWarning source' broken' name' ∧
        suggestionWarning source broken name suggested
          ≠ suggestionWarning source' broken' name' suggested')).
Proof.
  assert (∀ source name links,
            warningBroken <$> (report source name <$> links) = links ∧
            Forall (λ w, warningSource w = source) (report source name <$> links))
    as Hsource.
  { intros source name links. split.
    - apply reported_broken, fmap_reported.
    - apply Forall_fmap, Forall_forall. intros b _.
      apply warningSource_report. }
  split.
  - intros r logger. rewrite checkReflection_run. unfold warningsOf.
    eexists _, _, _, _. split; [reflexivity|].
    repeat split; apply Hsource.
  - intros source source' broken broken' name name' suggested suggested'.
    split; [by destruct source, source'|].
    intros Hne. by destruct source, source'.
Qed.

(** ** The search index event *)

Section index.
Context {A : Type}.
Implicit Types (l : list A) (k : Z).

Lemma length_arrayFrom {B} n (mapFn : nat → B) :
  length (arrayFrom n mapFn) = n.
Proof. unfold arrayFrom. by rewrite length_fmap, length_seq. Qed.

Lemma lookup_arrayFrom {B} n (mapFn : nat → B) i :
  i < n → arrayFrom n mapFn !! i = Some (mapFn i).
Proof.
  intros Hi. unfold arrayFrom.
  by rewrite list_lookup_fmap, lookup_seq_lt.
Qed.

(** Within the array, [splice(k, 1)] deletes the entry at [k]. *)
Lemma splice_one_delete l k :
  (0 ≤ k < Z.of_nat (length l))%Z → splice k 1 l = delete (Z.to_nat k) l.
Proof.
  intros Hk. unfold splice.
  destruct (Z.ltb_spec k 0) as [?|_]; [lia|].
  rewrite Z.min_l by lia. rewrite Z.max_l by lia. rewrite Z.min_l by lia.
  rewrite delete_take_drop. do 2 f_equal. lia.
Qed.

End index.

(** C8: an [IndexEvent] built from [n] results has [n] search field
    records, all empty, one at each index of a result, and its weights
    are exactly [name] = 10, [comment] = 1 and [document] = 1, so that
    the weight of the name is ten times each of the other two. *)
Theorem newIndexEvent_initial results :
  let event := newIndexEvent results in
  searchResults event = results ∧
  length (searchFields event) = length results ∧
  (∀ i, is_Some (results !! i) ↔ searchFields event !! i = Some ∅) ∧
  dom (searchFieldWeights event) = {[js "name"; js "comment"; js "document"]} ∧
  searchFieldWeights event !! js "name" = Some 10%Z ∧
  searchFieldWeights event !! js "comment" = Some 1%Z ∧
  searchFieldWeights event !! js "document" = Some 1%Z ∧
  (10 = 10 * 1)%Z.
Proof.
  simpl. split; [done|]. split; [apply length_arrayFrom|]. split.
  - intros i. rewrite lookup_lt_is_Some. split.
    + intros Hi. by rewrite lookup_arrayFrom.
    + intros Hi. apply lookup_lt_Some in Hi. by rewrite length_arrayFrom in Hi.
  - split.
    + rewrite !dom_insert_L, dom_empty_L. set_solver.
    + repeat split; by vm_compute.
Qed.

(** C5: on an [IndexEvent] whose two arrays have the same length [n], as
    they have when it is built, [removeResult(k)] with [0 <= k < n]
    leaves both arrays with [n - 1] entries, keeps the entries before
    [k] where they are and moves each entry after [k] down by one, in
    both arrays alike; the entry at [k] is the one that is gone. *)
Theorem removeResult_paired event k :
  length (searchFields event) = length (searchResults event) →
  (0 ≤ k < Z.of_nat (length (searchResults event)))%Z →
  let n := length (searchResults event) in
  let event' := removeResult k event in
  length (searchResults event') = n - 1 ∧
  length (searchFields event') = n - 1 ∧
  (∀ j, j < Z.to_nat k →
        searchResults event' !! j = searchResults event !! j ∧
        searchFields event' !! j = searchFields event !! j) ∧
  (∀ j, Z.to_nat k ≤ j →
        searchResults event' !! j = searchResults event !! S j ∧
        searchFields event' !! j = searchFields event !! S j) ∧
  searchFieldWeights event' = searchFieldWeights event.
Proof.
  intros Hlen Hk. simpl.
  rewrite !splice_one_delete by lia.
  rewrite !length_delete by (apply lookup_lt_is_Some; lia).
  rewrite Hlen. split; [lia|]. split; [lia|].
  split; [|split; [|done]]; intros j Hj.
  - by rewrite !list_lookup_delete_lt.
  - by rewrite !list_lookup_delete_ge.
Qed.

Lemma removeResult_paired_witness :
  let event := newIndexEvent [Samples.widget; Samples.shape; Samples.helper] in
  let event' := removeResult 1 event in
  length (searchResults event') = 3 - 1 ∧
  length (searchFields event') = 3 - 1 ∧
  (∀ j, j < Z.to_nat 1 →
        searchResults event' !! j = searchResults event !! j ∧
        searchFields event' !! j = searchFields event !! j) ∧
  (∀ j, Z.to_nat 1 ≤ j →
        searchResults event' !! j = searchResults event !! S j ∧
        searchFields event' !! j = searchFields event !! S j) ∧
  searchFieldWeights event' = searchFieldWeights event.
Proof.
  apply (removeResult_paired
           (newIndexEvent [Samples.widget; Samples.shape; Samples.helper]) 1).
  - reflexivity.
  - simpl. lia.
Defined.

Example removeResult_middle :
  searchResults
    (removeResult 1 (newIndexEvent [Samples.widget; Samples.shape; Samples.helper]))
  = [Samples.widget; Samples.helper].
Proof. reflexivity. Qed.

(** ** The page event *)

Section page.
Context {Model : Type}.
Implicit Types (st : PageEvent Model * Store) (σ : Store).

Lemma newArray_fresh σ : (newArray σ).1 ∉ dom σ.
Proof. apply is_fresh. Qed.

Lemma newPageEvent_invariant (model : Model) σ :
  pageInvariant (newPageEvent model σ).
Proof.
  split; [done|]. simpl. constructor; [|constructor]. simpl.
  rewrite dom_insert_L. set_solver.
Qed.

Lemma startNewSection_invariant title st :
  pageInvariant st → pageInvariant (startNewSection title st).
Proof.
  destruct st as [event σ]. intros [_ Halloc]. split; simpl.
  - by rewrite last_snoc.
  - rewrite Forall_app, Forall_singleton, dom_insert_L. simpl. split.
    + eapply Forall_impl; [exact Halloc|]. set_solver.
    + set_solver.
Qed.

Lemma recordHeading_invariant heading st :
  pageInvariant st → pageInvariant (recordHeading heading st).
Proof.
  destruct st as [event σ]. intros [Hlast Halloc]. split; simpl; [done|].
  eapply Forall_impl; [exact Halloc|]. simpl. intros s Hs.
  by rewrite dom_alter_L.
Qed.

Lemma pageStep_invariant ops st :
  pageInvariant st → pageInvariant (foldl pageStep st ops).
Proof.
  revert st. induction ops as [|op ops IH]; intros st Hst; [done|].
  simpl. apply IH. destruct op.
  - by apply startNewSection_invariant.
  - by apply recordHeading_invariant.
Qed.

End page.

(** C6: a new page event has one section, with an empty title, whose
    headings are the array that the event collects headings in, which is
    new and empty. After any sequence of [startNewSection] calls (and of
    headings recorded in between) the event has a section and the array
    it collects headings in is the array of its last section. Each call
    of [startNewSection] appends one section whose array is new, empty
    and the one the event now collects in, and leaves the sections before
    it and the contents of their arrays as they were. *)
Theorem pageSections_aliasing {Model} (model : Model) (σ0 : Store)
    (ops : list PageOp) :
  let st0 := newPageEvent model σ0 in
  let st := foldl pageStep st0 ops in
  (pageSections st0.1 = [ {| title := js ""; headings := pageHeadings st0.1 |} ] ∧
   (pageHeadings st0.1 ∉ dom σ0) ∧
   st0.2 !! pageHeadings st0.1 = Some []) ∧
  (pageSections st.1 ≠ [] ∧
   headings <$> last (pageSections st.1) = Some (pageHeadings st.1)) ∧
  (∀ title,
     let st' := startNewSection title st in
     pageSections st'.1 =
       pageSections st.1 ++ [ {| title := title; headings := pageHeadings st'.1 |} ] ∧
     headings <$> last (pageSections st'.1) = Some (pageHeadings st'.1) ∧
     st'.2 !! pageHeadings st'.1 = Some [] ∧
     (pageHeadings st'.1 ∉ dom st.2) ∧
     Forall (λ s, headings s ≠ pageHeadings st'.1 ∧
                  sectionHeadings st'.2 s = sectionHeadings st.2 s)
            (pageSections st.1)).
Proof.
  intros st0 st.
  assert (pageInvariant st) as [Hlast Halloc].
  { apply pageStep_invariant, newPageEvent_invariant. }
  split; [|split].
  - simpl. split; [done|]. split; [apply is_fresh | apply lookup_insert_eq].
  - split; [|done]. intros Hnil. by rewrite Hnil in Hlast.
  - intros title. destruct st as [event σ]. simpl in *.
    split; [done|]. split; [by rewrite last_snoc|].
    split; [apply lookup_insert_eq|]. split; [apply is_fresh|].
    eapply Forall_impl; [exact Halloc|]. simpl. intros s Hs.
    assert (headings s ≠ fresh (dom σ)) as Hne.
    { intros Heq. rewrite Heq in Hs. by apply is_fresh in Hs. }
    split; [done|]. unfold sectionHeadings. by rewrite lookup_insert_ne.
Qed.

(** A heading recorded after [startNewSection("B")] lands in the second
    section and not in the first. *)
Example heading_after_new_section (heading : PageHeading) :
  let st := recordHeading heading
              (startNewSection (js "B") (newPageEvent () ∅)) in
  sectionHeadings st.2 <$> pageSections st.1 = [Some []; Some [heading]] ∧
  st.2 !! pageHeadings st.1 = Some [heading].
Proof. by vm_compute. Qed.

(** ** Worked cases *)

Example trim_link_text :
  trim (js "  @scope/pkg.Thing ") = js "@scope/pkg.Thing".
Proof. by vm_compute. Qed.

Example replace_first_only :
  replaceClass (js ".#~") (js "!") (js "@a/b#c.d") = js "@a/b!c.d".
Proof. by vm_compute. Qed.

(** Text, code, a tag that is not a link tag and a link to a reflection
    are passed over; a link without target, a link to a placeholder and a
    link whose target is the empty string are collected. *)
Example getBrokenPartLinks_mixed :
  getBrokenPartLinks
    [ TextPart (js "a");
      InlineTagPart (js "@link") (js " One ") None;
      CodePart (js "b");
      InlineTagPart (js "@include") (js "Two") None;
      InlineTagPart (js "@linkcode") (js "Three") (Some (TargetReflection 7));
      InlineTagPart (js "@linkplain") (js "Four") (Some (TargetSymbolId (js "Four")));
      InlineTagPart (js "@link") (js "Five") (Some (TargetString (js "https://example.org")));
      InlineTagPart (js "@link") (js "Six") (Some (TargetString (js ""))) ]
  = [js "One"; js "Four"; js "Six"].
Proof. by vm_compute. Qed.

(** The whole run over the sample project: the reflections by ascending
    id, then the root, whose readme link has no leading [@]. *)
Example validateLinks_demo :
  validateLinks Samples.demo [] =
  (Normal (),
   [ failed_to_resolve_link_to_0_in_comment_for_1_may_have_meant_2
       (js "@scope/pkg.Thing") (js "Widget") (js "@scope/pkg!Thing");
     failed_to_resolve_link_to_0_in_comment_for_1 (js "Foo") (js "Shape");
     failed_to_resolve_link_to_0_in_comment_for_1_may_have_meant_2
       (js "@scope") (js "helper") (js "@scope");
     failed_to_resolve_link_to_0_in_readme_for_1 (js "Foo.Bar") (js "demo") ]).
Proof. by vm_compute. Qed.

(** A negative index counts from the end, and an index past the end
    removes nothing. *)
Example splice_clamped :
  splice (-1) 1 [1; 2; 3] = [1; 2] ∧ splice 7 1 [1; 2; 3] = [1; 2; 3].
Proof. by vm_compute. Qed.

(** * Further properties *)

(** ** Trimming *)

Section trimming.
Implicit Types s : jsstring.

Lemma trimStart_suffix s :
  ∃ ws, s = ws ++ trimStart s ∧ Forall (λ c, isTrimmed c = true) ws.
Proof.
  induction s as [|c s (ws & IH & Hws)]; simpl; [by exists []|].
  destruct (isTrimmed c) eqn:E.
  - exists (c :: ws). split; [by rewrite IH at 1 | by constructor].
  - by exists [].
Qed.

Lemma trimStart_head s c : head (trimStart s) = Some c → isTrimmed c = false.
Proof.
  induction s as [|d s IH]; simpl; [done|].
  destruct (isTrimmed d) eqn:E; [done|]. simpl. by intros [= <-].
Qed.

Lemma trimStart_fixed s :
  (∀ c, head s = Some c → isTrimmed c = false) → trimStart s = s.
Proof. destruct s as [|c s]; simpl; [done|]. intros H. by rewrite H. Qed.

Lemma trimEnd_prefix s :
  ∃ ws, s = trimEnd s ++ ws ∧ Forall (λ c, isTrimmed c = true) ws.
Proof.
  destruct (trimStart_suffix (reverse s)) as (ws & Hs & Hws).
  exists (reverse ws). split.
  - unfold trimEnd. rewrite <- reverse_app, <- Hs. by rewrite reverse_involutive.
  - by apply Forall_reverse.
Qed.

Lemma trimEnd_last s c : last (trimEnd s) = Some c → isTrimmed c = false.
Proof. unfold trimEnd. rewrite last_reverse. apply trimStart_head. Qed.

Lemma trimEnd_fixed s :
  (∀ c, last s = Some c → isTrimmed c = false) → trimEnd s = s.
Proof.
  intros H. unfold trimEnd. rewrite trimStart_fixed.
  - apply reverse_involutive.
  - intros c. rewrite head_reverse. apply H.
Qed.

Lemma trim_trimmed s : trimmed (trim s).
Proof.
  split; intros c Hc; [|by eapply trimEnd_last].
  unfold trim in Hc. destruct (trimEnd_prefix (trimStart s)) as (ws & Hs & _).
  apply (trimStart_head s). rewrite Hs.
  destruct (trimEnd (trimStart s)); [done | exact Hc].
Qed.

Lemma trimmed_trim s : trimmed s → trim s = s.
Proof.
  intros [Hhead Hlast]. unfold trim.
  rewrite (trimStart_fixed s Hhead). by apply trimEnd_fixed.
Qed.

End trimming.

(** X1: every link text that [getBrokenPartLinks] returns is trimmed: it
    neither starts nor ends with white space or a line terminator, so
    trimming it again changes nothing. *)
Theorem getBrokenPartLinks_trimmed parts link :
  link ∈ getBrokenPartLinks parts → trimmed link ∧ trim link = link.
Proof.
  rewrite getBrokenPartLinks_filter. intros (part & -> & _)%list_elem_of_fmap.
  split; [apply trim_trimmed | apply trimmed_trim, trim_trimmed].
Qed.

Lemma getBrokenPartLinks_trimmed_witness :
  trimmed (js "Foo") ∧ trim (js "Foo") = js "Foo".
Proof.
  apply (getBrokenPartLinks_trimmed
           [TextPart (js "see"); Samples.brokenLink "  Foo
 "]).
  vm_compute. left.
Defined.

(** ** Extraction, part by part *)

Section composing.

Lemma getBrokenPartLinks_concat (lists : list (list CommentDisplayPart)) :
  concat (getBrokenPartLinks <$> lists) = getBrokenPartLinks (concat lists).
Proof.
  induction lists as [|parts lists IH]; simpl; [done|].
  rewrite getBrokenPartLinks_app. f_equal. exact IH.
Qed.

Lemma length_getBrokenPartLinks parts :
  length (getBrokenPartLinks parts) ≤ length parts.
Proof.
  rewrite getBrokenPartLinks_filter, length_fmap. apply length_filter.
Qed.

End composing.

(** X2: [getBrokenPartLinks] goes part by part: the links of two
    sequences in a row are the links of the first followed by the links
    of the second, the links of several sequences flattened are the links
    of the flattened sequence (what [flatMap] over the member summaries
    of a union computes), and there are at most as many links as parts. *)
Theorem getBrokenPartLinks_sequences :
  (∀ parts1 parts2,
     getBrokenPartLinks (parts1 ++ parts2) =
     getBrokenPartLinks parts1 ++ getBrokenPartLinks parts2) ∧
  (∀ lists,
     concat (getBrokenPartLinks <$> lists) = getBrokenPartLinks (concat lists)) ∧
  (∀ parts, length (getBrokenPartLinks parts) ≤ length parts).
Proof.
  split; [exact getBrokenPartLinks_app|].
  split; [exact getBrokenPartLinks_concat | exact length_getBrokenPartLinks].
Qed.

(** X3: the broken links of a comment are the broken links of all its
    parts taken as one sequence, the summary first and then the content
    of each block tag: collecting tag by tag loses and reorders nothing. *)
Theorem getBrokenLinks_commentParts comment :
  getBrokenLinks (Some comment) = getBrokenPartLinks (commentParts comment).
Proof.
  simpl. rewrite getBrokenLinks_blockTags. unfold commentParts.
  rewrite getBrokenPartLinks_app. f_equal.
  rewrite <- getBrokenPartLinks_concat, <- list_fmap_compose. done.
Qed.

(** ** The warnings of one reflection *)

Section warnings.

Lemma warningName_report source name broken :
  warningName (report source name broken) = name.
Proof. unfold report. by destruct (_ && _), source. Qed.

Lemma warningSuggestion_report source name broken suggested :
  warningSuggestion (report source name broken) = Some suggested →
  looksScoped broken ∧ suggested = replaceClass (js ".#~") (js "!") broken.
Proof.
  unfold report. destruct (_ && _) eqn:E.
  - apply looksScoped_decide in E. destruct source; simpl; by intros [= <-].
  - by destruct source.
Qed.

(** Where each warning of a reflection comes from. *)
Lemma warningsOf_elem r w :
  w ∈ warningsOf r →
  ∃ broken,
    (w = report InReadme (friendlyFullName r) broken ∧ broken ∈ readmeLinks r) ∨
    (w = report InDocument (friendlyFullName r) broken ∧ broken ∈ documentLinks r) ∨
    (w = report InComment (friendlyFullName r) broken ∧
     (broken ∈ commentLinks r ∨ broken ∈ unionSummaryLinks r)).
Proof.
  unfold warningsOf. rewrite !elem_of_app, !list_elem_of_fmap.
  intros [(b & -> & Hb)|[(b & -> & Hb)|[(b & -> & Hb)|(b & -> & Hb)]]];
    exists b; tauto.
Qed.

Lemma warningsOf_report r w :
  w ∈ warningsOf r →
  ∃ source broken, w = report source (friendlyFullName r) broken.
Proof.
  intros (b & [[-> _]|[[-> _]|[-> _]]])%warningsOf_elem; eauto.
Qed.

Lemma length_warningsOf r : length (warningsOf r) = length (brokenLinksOf r).
Proof.
  unfold warningsOf, brokenLinksOf. by rewrite !length_app, !length_fmap.
Qed.

Lemma readmeLinks_guard r broken :
  broken ∈ readmeLinks r → isProject r || isDeclaration r = true.
Proof.
  unfold readmeLinks. destruct (_ || _); [done|]. by intros ?%elem_of_nil.
Qed.

Lemma documentLinks_guard r broken :
  broken ∈ documentLinks r → isDocument r = true.
Proof.
  unfold documentLinks. destruct (isDocument r); [done|].
  by intros ?%elem_of_nil.
Qed.

Lemma length_replaceClass_unit class c s :
  length (replaceClass class [c] s) = length s.
Proof.
  induction s as [|d s IH]; simpl; [done|].
  destruct (classMatches class d); simpl; by rewrite ?IH.
Qed.

Lemma replaceClass_changed class replacement s :
  replaceClass class replacement s ≠ s → Exists (λ d, d ∈ class) s.
Proof.
  intros Hne. destruct (decide (Exists (λ d, d ∈ class) s)) as [|Hno]; [done|].
  destruct Hne. apply replaceClass_no_match.
  apply Forall_forall. intros d Hd Hin. apply Hno, Exists_exists. eauto.
Qed.

End warnings.

(** X4: every warning that [checkReflection] issues for a reflection
    names that reflection (its friendly full name is the second argument
    of the message), and there is one warning for each broken link of its
    four sources, repeated links included. *)
Theorem checkReflection_names_reflection r logger :
  ∃ ws, checkReflection r logger = (Normal (), logger ++ ws) ∧
        Forall (λ w, warningName w = friendlyFullName r) ws ∧
        length ws = length (brokenLinksOf r).
Proof.
  exists (warningsOf r). split; [apply checkReflection_run|].
  split; [|apply length_warningsOf].
  apply Forall_forall. intros w (source & broken & ->)%warningsOf_report.
  apply warningName_report.
Qed.

(** X5: the template of a warning follows the kind of reflection: a
    readme warning is issued only for a project or a declaration, and a
    document warning only for a document; any other reflection (a
    signature, a parameter) gets comment warnings only. *)
Theorem checkReflection_sources_by_variant r logger :
  ∃ ws, checkReflection r logger = (Normal (), logger ++ ws) ∧
        Forall (λ w,
                  (warningSource w = InReadme →
                     isProject r || isDeclaration r = true) ∧
                  (warningSource w = InDocument → isDocument r = true) ∧
                  (isProject r || isDeclaration r || isDocument r = false →
                     warningSource w = InComment)) ws.
Proof.
  exists (warningsOf r). split; [apply checkReflection_run|].
  apply Forall_forall. intros w (b & Hw)%warningsOf_elem.
  destruct Hw as [[-> Hb]|[[-> Hb]|[-> Hb]]]; rewrite warningSource_report.
  - apply readmeLinks_guard in Hb. rewrite Hb. by repeat split.
  - apply documentLinks_guard in Hb. rewrite Hb, orb_true_r. by repeat split.
  - by repeat split.
Qed.

(** X6: a suggested text is as long as the broken text and still starts
    with [@]; it differs from the broken text exactly when it contains
    the module source indicator [!], in which case it would not be taken
    for a scoped reference again. *)
Theorem suggestion_shape r logger :
  ∃ ws, checkReflection r logger = (Normal (), logger ++ ws) ∧
        Forall (λ w, ∀ suggested,
                  warningSuggestion w = Some suggested →
                  length suggested = length (warningBroken w) ∧
                  js "@" `prefix_of` suggested ∧
                  (suggested ≠ warningBroken w ↔ occursIn (js "!") suggested))
               ws.
Proof.
  exists (warningsOf r). split; [apply checkReflection_run|].
  apply Forall_forall. intros w (source & broken & ->)%warningsOf_report.
  intros suggested [[Hat Hbang] ->]%warningSuggestion_report.
  rewrite warningBroken_report.
  split; [apply length_replaceClass_unit|]. split.
  - destruct Hat as [rest ->]. by exists (replaceClass (js ".#~") (js "!") rest).
  - split.
    + intros Hne%replaceClass_changed.
      destruct (replaceClass_first (js ".#~") (js "!") broken Hne)
        as (before & c & after & _ & _ & _ & ->).
      by exists before, after.
    + intros Hocc Heq. by rewrite Heq in Hocc.
Qed.

(** ** The order and the reach of the traversal *)

Section order.


Lemma forInKeys_empty {V} : forInKeys (∅ : gmap N V) = [].
Proof.
  apply Permutation_nil_r. rewrite forInKeys_Permutation, dom_empty_L.
  by rewrite elements_empty.
Qed.

Lemma validateLinks_registered project logger :
  projectId project ∈ dom (reflections project) →
  validateLinks project logger =
  (Normal (), logger ++ concat (warningsOf <$> stored project)).
Proof.
  intros Hin. rewrite validateLinks_run. unfold checked.
  apply hasProperty_dom in Hin. by rewrite Hin, app_nil_r.
Qed.

End order.


(** X8: when the id of the root is a key of the mapping, the root object
    itself is not looked at: the run checks what is stored under that
    key, and the readme, the comment and the name of the root have no
    effect on the warnings. *)
Theorem validateLinks_registered_root project logger comment name readme :
  projectId project ∈ dom (reflections project) →
  validateLinks
    {| projectId := projectId project; projectComment := comment;
       projectName := name; projectReadme := readme;
       reflections := reflections project |} logger =
  validateLinks project logger.
Proof.
  intros Hin. by rewrite !validateLinks_registered.
Qed.

Lemma validateLinks_registered_root_witness :
  validateLinks
    {| projectId := 0; projectComment := None; projectName := js "other";
       projectReadme := None;
       reflections := reflections demoRegistered |} [] =
  validateLinks demoRegistered [].
Proof.
  apply (validateLinks_registered_root demoRegistered [] None (js "other") None).
  apply (bool_decide_unpack _). by vm_compute.
Defined.

(** X9: with nothing in the mapping, the run is the check of the root
    alone. *)
Theorem validateLinks_empty_mapping project logger :
  reflections project = ∅ →
  validateLinks project logger = checkReflection (asReflection project) logger.
Proof.
  intros Hempty. rewrite validateLinks_run, checkReflection_run.
  unfold checked, stored, hasProperty. rewrite Hempty, forInKeys_empty.
  rewrite bool_decide_eq_false_2 by (rewrite dom_empty_L; set_solver).
  simpl. by rewrite app_nil_r.
Qed.

Lemma validateLinks_empty_mapping_witness :
  validateLinks demoEmpty [] = checkReflection (asReflection demoEmpty) [].
Proof. apply (validateLinks_empty_mapping demoEmpty []). reflexivity. Defined.

(** ** Removing results at any index *)

Section removing.
Context {A : Type}.
Implicit Types (l : list A) (k : Z).

(** [splice(k, 1)] deletes the entry at the clamped index, if there is
    one. *)
Lemma splice_one l k : splice k 1 l = delete (spliceStart k (length l)) l.
Proof.
  unfold splice, spliceStart. rewrite delete_take_drop.
  set (len := Z.of_nat (length l)).
  set (start := if (k <? 0)%Z then Z.max (len + k) 0 else Z.min k len).
  assert (0 ≤ start ≤ len)%Z as Hstart.
  { unfold start. destruct (k <? 0)%Z eqn:E; lia. }
  rewrite (Z.max_l 1 0) by lia.
  destruct (decide (start = len)) as [Heq|Hne].
  - rewrite Heq, Z.min_r by lia.
    rewrite !drop_ge; [done | unfold len; lia..].
  - rewrite Z.min_l by lia. do 2 f_equal. lia.
Qed.

Lemma delete_past_end l i : length l ≤ i → delete i l = l.
Proof.
  intros Hi. rewrite delete_take_drop, take_ge, drop_ge by lia.
  apply app_nil_r.
Qed.

End removing.

(** X10: for every integer index, in range or not, [removeResult] cuts
    both arrays at one and the same position, which depends only on the
    index and on their common length; so arrays that go index by index
    before the call still do after it. *)
Theorem removeResult_same_position event k :
  aligned event →
  ∃ i,
    searchResults (removeResult k event) = delete i (searchResults event) ∧
    searchFields (removeResult k event) = delete i (searchFields event) ∧
    aligned (removeResult k event).
Proof.
  unfold aligned. intros Hlen.
  exists (spliceStart k (length (searchResults event))). simpl.
  rewrite !splice_one, Hlen. split; [done|]. split; [done|].
  set (i := spliceStart _ _).
  destruct (decide (i < length (searchResults event))) as [Hi|Hi].
  - rewrite !length_delete by (apply lookup_lt_is_Some; lia). by rewrite Hlen.
  - rewrite !delete_past_end by lia. done.
Qed.

Lemma removeResult_same_position_witness :
  ∃ i,
    searchResults (removeResult (-1) (newIndexEvent [Samples.widget; Samples.shape]))
      = delete i (searchResults (newIndexEvent [Samples.widget; Samples.shape])) ∧
    searchFields (removeResult (-1) (newIndexEvent [Samples.widget; Samples.shape]))
      = delete i (searchFields (newIndexEvent [Samples.widget; Samples.shape])) ∧
    aligned (removeResult (-1) (newIndexEvent [Samples.widget; Samples.shape])).
Proof.
  apply (removeResult_same_position
           (newIndexEvent [Samples.widget; Samples.shape]) (-1)).
  reflexivity.
Defined.

(** X11: an index at or past the end removes nothing: the event is left
    as it was, and nothing is thrown. *)
Theorem removeResult_past_end event k :
  aligned event →
  (Z.of_nat (length (searchResults event)) ≤ k)%Z →
  removeResult k event = event.
Proof.
  unfold aligned. intros Hlen Hk. destruct event as [results fields weights].
  unfold removeResult. simpl in *. rewrite !splice_one.
  rewrite !delete_past_end; [done | unfold spliceStart..].
  - destruct (Z.ltb_spec k 0); lia.
  - destruct (Z.ltb_spec k 0); lia.
Qed.

Lemma removeResult_past_end_witness :
  removeResult 2 (newIndexEvent [Samples.widget; Samples.shape])
  = newIndexEvent [Samples.widget; Samples.shape].
Proof.
  apply (removeResult_past_end (newIndexEvent [Samples.widget; Samples.shape]) 2).
  - reflexivity.
  - simpl. lia.
Defined.

(** X12: a negative index counts from the end: [removeResult(-j)] with
    [1 <= j <= n] removes the entry at [n - j] from both arrays, so
    [removeResult(-1)] removes the last result; an index below [-n]
    removes the first entry. *)
Theorem removeResult_negative event k :
  aligned event →
  (k < 0)%Z →
  let n := length (searchResults event) in
  let i := Z.to_nat (Z.max (Z.of_nat n + k) 0) in
  searchResults (removeResult k event) = delete i (searchResults event) ∧
  searchFields (removeResult k event) = delete i (searchFields event).
Proof.
  unfold aligned. intros Hlen Hk. simpl. rewrite !splice_one, Hlen.
  unfold spliceStart. by destruct (Z.ltb_spec k 0); [|lia].
Qed.

Lemma removeResult_negative_witness :
  searchResults
    (removeResult (-1) (newIndexEvent [Samples.widget; Samples.shape; Samples.helper]))
  = delete 2 [Samples.widget; Samples.shape; Samples.helper] ∧
  searchFields
    (removeResult (-1) (newIndexEvent [Samples.widget; Samples.shape; Samples.helper]))
  = delete 2 (searchFields (newIndexEvent [Samples.widget; Samples.shape; Samples.helper])).
Proof.
  apply (removeResult_negative
           (newIndexEvent [Samples.widget; Samples.shape; Samples.helper]) (-1)).
  - reflexivity.
  - lia.
Defined.

(** X13: whatever indices are removed from a new index event, in
    whatever order, the two arrays keep a common length, the results
    that are left are results of the original list in their original
    order, the field records that are left are still empty, and the
    weights are the initial ones. *)
Theorem removeResult_sequence results (ks : list Z) :
  let event := foldl (λ e k, removeResult k e) (newIndexEvent results) ks in
  aligned event ∧
  searchResults event `sublist_of` results ∧
  Forall (λ fields, fields = ∅) (searchFields event) ∧
  searchFieldWeights event = searchFieldWeights (newIndexEvent results).
Proof.
  simpl.
  assert (∀ e,
    aligned e ∧ searchResults e `sublist_of` results ∧
    Forall (λ fields, fields = ∅) (searchFields e) ∧
    searchFieldWeights e = searchFieldWeights (newIndexEvent results) →
    let e' := foldl (λ e k, removeResult k e) e ks in
    aligned e' ∧ searchResults e' `sublist_of` results ∧
    Forall (λ fields, fields = ∅) (searchFields e') ∧
    searchFieldWeights e' = searchFieldWeights (newIndexEvent results)) as Hstep.
  { induction ks as [|k ks IH]; intros e He; [done|]. simpl. apply IH.
    destruct He as (Hal & Hsub & Hempty & Hw).
    destruct (removeResult_same_position e k Hal) as (i & Hr & Hf & Hal').
    split; [done|]. split; [|split; [|done]].
    - rewrite Hr. etransitivity; [apply sublist_delete | done].
    - rewrite Hf. by apply Forall_delete. }
  apply Hstep. split; [apply length_arrayFrom|]. split; [done|].
  split; [|done]. simpl. unfold arrayFrom. apply Forall_fmap, Forall_forall. done.
Qed.

(** ** Sections and their headings *)

Section sections.
Context {Model : Type}.
Implicit Types (st : PageEvent Model * Store) (σ : Store).

Lemma newPageEvent_separate (model : Model) σ :
  pageSeparate (newPageEvent model σ).
Proof.
  split; [apply newPageEvent_invariant|]. simpl. apply NoDup_singleton.
Qed.

Lemma startNewSection_separate title st :
  pageSeparate st → pageSeparate (startNewSection title st).
Proof.
  intros [Hinv Hnd]. split; [by apply startNewSection_invariant|].
  destruct st as [event σ]. destruct Hinv as [_ Halloc]. simpl in *.
  rewrite fmap_app. apply NoDup_app. split; [done|].
  split; [|apply NoDup_singleton]. simpl.
  intros l (s & Hl & Hs)%list_elem_of_fmap Hfresh%list_elem_of_singleton.
  rewrite Forall_forall in Halloc. apply Halloc in Hs.
  rewrite <- Hl, Hfresh in Hs. by apply is_fresh in Hs.
Qed.

Lemma recordHeading_separate heading st :
  pageSeparate st → pageSeparate (recordHeading heading st).
Proof.
  intros [Hinv Hnd]. split; [by apply recordHeading_invariant|].
  by destruct st.
Qed.

Lemma pageStep_separate ops st :
  pageSeparate st → pageSeparate (foldl pageStep st ops).
Proof.
  revert st. induction ops as [|op ops IH]; intros st Hst; [done|].
  simpl. apply IH. destruct op.
  - by apply startNewSection_separate.
  - by apply recordHeading_separate.
Qed.

(** In a page with separate arrays, the sections are the earlier ones
    and the last one, whose array is allocated, is the one the event
    collects in, and is the array of no earlier section. *)
Lemma pageSeparate_last st :
  pageSeparate st →
  ∃ earlier current hs,
    pageSections st.1 = earlier ++ [current] ∧
    headings current = pageHeadings st.1 ∧
    st.2 !! pageHeadings st.1 = Some hs ∧
    Forall (λ s, headings s ≠ pageHeadings st.1) earlier.
Proof.
  intros [[Hlast Halloc] Hnd].
  destruct (last (pageSections st.1)) as [current|] eqn:E; [|done].
  apply last_Some in E as [earlier E]. injection Hlast as Hcur.
  rewrite E in Halloc, Hnd.
  rewrite Forall_app, Forall_singleton in Halloc. destruct Halloc as [_ Hc].
  rewrite Hcur in Hc. apply elem_of_dom in Hc as [hs Hhs].
  exists earlier, current, hs. repeat split; try done.
  rewrite fmap_app in Hnd. apply NoDup_app in Hnd as (_ & Hdisj & _).
  apply Forall_forall. intros s Hs Heq. apply (Hdisj (headings s)).
  - apply list_elem_of_fmap. eauto.
  - simpl. rewrite Heq, Hcur. by left.
Qed.

Lemma allHeadings_startNewSection title st :
  pageSeparate st → allHeadings (startNewSection title st) = allHeadings st.
Proof.
  intros [[_ Halloc] _]. destruct st as [event σ]. unfold allHeadings.
  simpl in *. rewrite fmap_app, concat_app. simpl.
  unfold sectionHeadings at 2. simpl. rewrite lookup_insert_eq. simpl.
  rewrite app_nil_r. f_equal. apply Forall_fmap_ext.
  eapply Forall_impl; [exact Halloc|]. simpl. intros s Hs.
  unfold sectionHeadings. rewrite lookup_insert_ne; [done|].
  intros Heq. rewrite <- Heq in Hs. by apply is_fresh in Hs.
Qed.

Lemma allHeadings_recordHeading heading st :
  pageSeparate st →
  allHeadings (recordHeading heading st) = allHeadings st ++ [heading].
Proof.
  intros (earlier & current & hs & Hsec & Hcur & Hhs & Hne)%pageSeparate_last.
  destruct st as [event σ]. unfold allHeadings. simpl in *.
  rewrite Hsec, !fmap_app, !concat_app. simpl.
  unfold sectionHeadings at 2 4. rewrite Hcur, lookup_alter_eq, Hhs. simpl.
  rewrite !app_nil_r, <- app_assoc. f_equal. f_equal.
  apply Forall_fmap_ext. eapply Forall_impl; [exact Hne|]. simpl.
  intros s Hs. unfold sectionHeadings. by rewrite lookup_alter_ne.
Qed.

Lemma allHeadings_run ops st :
  pageSeparate st →
  allHeadings (foldl pageStep st ops) = allHeadings st ++ headingsOf ops.
Proof.
  revert st. induction ops as [|op ops IH]; intros st Hst; simpl.
  - by rewrite app_nil_r.
  - destruct op as [title|heading]; simpl.
    + rewrite IH by (by apply startNewSection_separate).
      by rewrite allHeadings_startNewSection.
    + rewrite IH by (by apply recordHeading_separate).
      by rewrite allHeadings_recordHeading, <- app_assoc.
Qed.

Lemma titles_run ops st :
  title <$> pageSections (foldl pageStep st ops).1 =
  (title <$> pageSections st.1) ++ titlesOf ops.
Proof.
  revert st. induction ops as [|op ops IH]; intros st; simpl.
  - by rewrite app_nil_r.
  - rewrite IH. destruct op as [t|h], st as [event σ]; simpl; [|done].
    by rewrite fmap_app, <- app_assoc.
Qed.

End sections.

(** X14: a page has one section for the construction and one for each
    [startNewSection] call, in the order of the calls: the titles of its
    sections are the empty title followed by the titles passed in. *)
Theorem pageSections_titles {Model} (model : Model) (σ0 : Store) ops :
  let st := foldl pageStep (newPageEvent model σ0) ops in
  title <$> pageSections st.1 = js "" :: titlesOf ops ∧
  length (pageSections st.1) = S (length (titlesOf ops)).
Proof.
  simpl.
  assert (title <$> pageSections (foldl pageStep (newPageEvent model σ0) ops).1
          = js "" :: titlesOf ops) as Htitles by apply titles_run.
  split; [done|]. by rewrite <- (length_fmap title), Htitles.
Qed.

(** X15: no two sections of a page share a headings array, and every
    section's array exists in the store, whatever sections were started
    and whatever headings were recorded. *)
Theorem pageSections_separate_arrays {Model} (model : Model) (σ0 : Store) ops :
  let st := foldl pageStep (newPageEvent model σ0) ops in
  NoDup (headings <$> pageSections st.1) ∧
  Forall (λ s, is_Some (sectionHeadings st.2 s)) (pageSections st.1).
Proof.
  simpl.
  destruct (pageStep_separate ops _ (newPageEvent_separate model σ0))
    as [[_ Halloc] Hnd].
  split; [done|]. eapply Forall_impl; [exact Halloc|]. simpl.
  intros s Hs. by apply elem_of_dom in Hs.
Qed.

(** X16: no heading is lost or moved: the headings of the sections of a
    page, read section after section, are the headings that were
    recorded, in the order in which they were recorded. *)
Theorem pageSections_hold_all_headings {Model} (model : Model) (σ0 : Store) ops :
  allHeadings (foldl pageStep (newPageEvent model σ0) ops) = headingsOf ops.
Proof.
  rewrite allHeadings_run by apply newPageEvent_separate.
  unfold allHeadings, sectionHeadings. simpl. by rewrite lookup_insert_eq.
Qed.

(** X17: a heading pushed on [pageHeadings] goes to the end of the last
    section and nowhere else: the sections stay the same, the array of
    the last one gets the heading appended, and the arrays of the earlier
    sections keep their contents. *)
Theorem recordHeading_last_section {Model} (model : Model) (σ0 : Store) ops
    heading :
  let st := foldl pageStep (newPageEvent model σ0) ops in
  let st' := recordHeading heading st in
  pageSections st'.1 = pageSections st.1 ∧
  ∃ earlier current hs,
    pageSections st.1 = earlier ++ [current] ∧
    sectionHeadings st.2 current = Some hs ∧
    sectionHeadings st'.2 current = Some (hs ++ [heading]) ∧
    Forall (λ s, sectionHeadings st'.2 s = sectionHeadings st.2 s) earlier.
Proof.
  simpl.
  destruct (pageSeparate_last _
              (pageStep_separate ops _ (newPageEvent_separate model σ0)))
    as (earlier & current & hs & Hsec & Hcur & Hhs & Hne).
  destruct (foldl pageStep (newPageEvent model σ0) ops) as [event σ].
  simpl in *. split; [done|]. exists earlier, current, hs.
  unfold sectionHeadings. rewrite Hcur, lookup_alter_eq, Hhs.
  repeat split; try done.
  eapply Forall_impl; [exact Hne|]. simpl. intros s Hs.
  by rewrite lookup_alter_ne.
Qed.
